(** * Simplex-number reciprocals and their gaps: a model of [tr-nums.py]

    The script defines two generators, [inv_tr_nums] and [inv_gap_nums], and
    a driver that prints the first [N = 10] values of four instances.

    - Python [int] is [Z].
    - [numpy.float64] is [spec_float] at precision 53 and [emax = 1024];
      [*] and [/] on it are [SFmul] and [SFdiv] (round to nearest even,
      no exception on overflow or division by zero).
    - [fractions.Fraction] is a [Q] kept in lowest terms: every operation
      ends in [Qred], so Python's [==] on fractions is Leibniz equality.
    - an exception is the left summand of [result].
    - a generator is its saved local variables plus a resume function.
    - [scipy.special.gamma] is not part of the script: it is a variable of
      the development, [gamma : Z -> float64]. *)

From Stdlib Require Import ZArith QArith Qreduction Qcanon Qpower Lia List Bool String.
From Stdlib Require Import Floats.SpecFloat.
From Stdlib Require DecimalString Zdivisibility.
From Stdlib Require Import Ascii.
Import ListNotations.

Local Open Scope Z_scope.

(** ** Exceptions and the error monad *)

Inductive exn : Type :=
| ValueError          (* Fraction(nan) *)
| OverflowError       (* Fraction(inf) *)
| ZeroDivisionError.  (* 1 / Fraction(0) *)

Inductive result (A : Type) : Type :=
| Ok (a : A)
| Raise (e : exn).
Arguments Ok {A} a.
Arguments Raise {A} e.

Definition bind {A B : Type} (r : result A) (k : A -> result B) : result B :=
  match r with
  | Ok a => k a
  | Raise e => Raise e
  end.

Notation "x <- r ;; k" := (bind r (fun x => k))
  (at level 61, r at next level, right associativity).
Notation "' p <- r ;; k" := (bind r (fun p => k))
  (at level 61, p pattern, r at next level, right associativity).

(** ** numpy.float64 *)

Definition float64 : Type := spec_float.

Definition prec : Z := 53.
Definition emax : Z := 1024.

Definition fmul (x y : float64) : float64 := SFmul prec emax x y.
Definition fdiv (x y : float64) : float64 := SFdiv prec emax x y.

(** The double nearest to an integer. *)
Definition float_of_Z (z : Z) : float64 := binary_normalize prec emax z 0 false.

(** ** fractions.Fraction *)

Definition Fraction : Type := Q.

Definition Fraction_of_Z (z : Z) : Fraction := inject_Z z.

(** [m = odd * 2^t]: returns [odd] and the exponent raised by [t]. *)
Fixpoint strip_twos (m : positive) (e : Z) : positive * Z :=
  match m with
  | xO m' => strip_twos m' (e + 1)
  | _ => (m, e)
  end.

(** [float.as_integer_ratio]: the pair is in lowest terms. *)
Definition as_integer_ratio (x : float64) : result (Z * positive) :=
  match x with
  | S754_nan => Raise ValueError
  | S754_infinity _ => Raise OverflowError
  | S754_zero _ => Ok (0, 1%positive)
  | S754_finite s m e =>
      let '(odd, e') := strip_twos m e in
      let num := if s then Zneg odd else Zpos odd in
      match e' with
      | Zneg p => Ok (num, Pos.pow 2 p)
      | _ => Ok (Z.shiftl num e', 1%positive)
      end
  end.

(** [Fraction(x)] for a float [x]. *)
Definition Fraction_of_float (x : float64) : result Fraction :=
  '(num, den) <- as_integer_ratio x ;;
  Ok (Qmake num den).

(** [a + b] *)
Definition Fraction_add (a b : Fraction) : Fraction := Qred (Qplus a b).

(** [a / b] *)
Definition Fraction_div (a b : Fraction) : result Fraction :=
  if Qnum b =? 0 then Raise ZeroDivisionError
  else Ok (Qred (Qdiv a b)).

(** [str(a)] *)
Definition str_Z (z : Z) : string :=
  DecimalString.NilZero.string_of_int (Z.to_int z).

Definition Fraction_str (a : Fraction) : string :=
  match Qden a with
  | xH => str_Z (Qnum a)
  | den => (str_Z (Qnum a) ++ "/" ++ str_Z (Zpos den))%string
  end.

(** ** The generators *)

Section Generators.

(** [scipy.special.gamma], at an integer argument. *)
Variable gamma : Z -> float64.

(** [gamma(n + d) / (gamma(n) * gamma(d + 1))] *)
Definition gamma_ratio (d n : Z) : float64 :=
  fdiv (gamma (n + d)) (fmul (gamma n) (gamma (d + 1))).

(** The expression after [yield] in [inv_tr_nums]. *)
Definition tr_term (d n : Z) : result Fraction :=
  r <- Fraction_of_float (gamma_ratio d n) ;;
  Fraction_div (Fraction_of_Z 1) r.

(** A suspended [inv_tr_nums] frame: its locals [d] and [n]. *)
Record tr_frame : Type := TrFrame { tr_d : Z; tr_n : Z }.

(** [inv_tr_nums(d)]: the frame before the first [next]. *)
Definition inv_tr_nums (d : Z) : tr_frame := TrFrame d 1.

(** [next(g)]: run to the [yield], hand out the value; the frame is
    resumed at [n += 1] by the following [next], which is folded into
    this step. An exception leaves no frame behind. *)
Definition tr_next (g : tr_frame) : result (Fraction * tr_frame) :=
  v <- tr_term (tr_d g) (tr_n g) ;;
  Ok (v, TrFrame (tr_d g) (tr_n g + 1)).

(** A suspended [inv_gap_nums] frame: [x] and [gen_inv_tr_nums]. *)
Record gap_frame : Type := GapFrame { gap_x : Fraction; gap_gen : tr_frame }.

Definition inv_gap_nums (d : Z) : gap_frame :=
  GapFrame (Fraction_of_Z (-1)) (inv_tr_nums d).

Definition gap_next (g : gap_frame) : result (Fraction * gap_frame) :=
  '(v, gen') <- tr_next (gap_gen g) ;;
  let x := Fraction_add (gap_x g) v in
  Ok (x, GapFrame x gen').

(** [islice(gen, N)] drained by a [for] loop: the values in order and the
    frame left behind, or the exception that ended the loop. *)
Fixpoint islice {G : Type} (next : G -> result (Fraction * G))
         (g : G) (N : nat) : result (list Fraction * G) :=
  match N with
  | O => Ok ([], g)
  | S N' =>
      '(v, g') <- next g ;;
      '(vs, g'') <- islice next g' N' ;;
      Ok (v :: vs, g'')
  end.

(** The value of the [(i+1)]-th [next]: [i] values are drawn and dropped
    first. *)
Fixpoint yield_at {G : Type} (next : G -> result (Fraction * G))
         (g : G) (i : nat) : result Fraction :=
  '(v, g') <- next g ;;
  match i with
  | O => Ok v
  | S i' => yield_at next g' i'
  end.

End Generators.

Arguments islice {G} next g N.
Arguments yield_at {G} next g i.

(** ** The driver *)

(** Standard output is the list of lines printed so far; an uncaught
    exception ends the run and keeps what was printed. *)
Definition io (A : Type) : Type := list string -> result A * list string.

Definition io_ret {A : Type} (a : A) : io A := fun out => (Ok a, out).

Definition io_bind {A B : Type} (m : io A) (k : A -> io B) : io B :=
  fun out =>
    match m out with
    | (Ok a, out') => k a out'
    | (Raise e, out') => (Raise e, out')
    end.

Definition io_lift {A : Type} (r : result A) : io A := fun out => (r, out).

Definition print (line : string) : io unit :=
  fun out => (Ok tt, out ++ [line]).

Notation "m >> k" := (io_bind m (fun _ => k))
  (at level 62, right associativity).

(** [for num in islice(gen, N): print(num)]: [islice] is lazy, so each
    value is printed before the next one is computed. *)
Fixpoint print_islice {G : Type} (next : G -> result (Fraction * G))
         (g : G) (N : nat) : io unit :=
  match N with
  | O => io_ret tt
  | S N' =>
      io_bind (io_lift (next g)) (fun '(num, g') =>
      print (Fraction_str num) >>
      print_islice next g' N')
  end.

Definition N : nat := 10.

(** The module's top level; [inv_tr_nums()] and [inv_gap_nums()] take the
    default [d = 2]. *)
Definition main (gamma : Z -> float64) : io unit :=
  print_islice (tr_next gamma) (inv_tr_nums 2) N >>
  print "---" >>
  print_islice (tr_next gamma) (inv_tr_nums 3) N >>
  print "---" >>
  print_islice (gap_next gamma) (inv_gap_nums 2) N >>
  print "---" >>
  print_islice (gap_next gamma) (inv_gap_nums 3) N.

(** ** Reference quantities *)

Fixpoint factorial (k : nat) : Z :=
  match k with
  | O => 1
  | S k' => Z.of_nat k * factorial k'
  end.

(** Binomial coefficients by Pascal's rule. *)
Fixpoint binom (n k : nat) : Z :=
  match k, n with
  | O, _ => 1
  | S _, O => 0
  | S k', S n' => binom n' k' + binom n' k
  end.

(** Gamma at a positive integer, correctly rounded: the double nearest to
    [(k-1)!], infinite once that exceeds the largest double. *)
Definition gamma_ref (k : Z) : float64 :=
  if k <=? 0 then S754_nan else float_of_Z (factorial (Z.to_nat (k - 1))).

(** [gamma] returns the factorial, as a double, on [1 .. B]. *)
Definition gamma_exact_upto (gamma : Z -> float64) (B : Z) : Prop :=
  forall k, 1 <= k <= B -> gamma k = float_of_Z (factorial (Z.to_nat (k - 1))).

(** The real number a finite double stands for. *)
Definition float_value (s : bool) (m : positive) (e : Z) : Q :=
  ((if s then -1 else 1) * inject_Z (Zpos m) * Qpower 2 e)%Q.

(** The sign bit is [s], or [x] is not a number. *)
Definition has_sign (s : bool) (x : float64) : Prop :=
  match x with
  | S754_zero s' | S754_infinity s' | S754_finite s' _ _ => s' = s
  | S754_nan => True
  end.

Definition sign_nonneg (x : float64) : Prop := has_sign false x.

(** Running sums [x + v1], [x + v1 + v2], ... *)
Fixpoint running_sums (x : Fraction) (vs : list Fraction) : list Fraction :=
  match vs with
  | [] => []
  | v :: vs' => let x' := Fraction_add x v in x' :: running_sums x' vs'
  end.

(** [mapM] in the error monad: the first exception wins. *)
Fixpoint mapM {A B : Type} (f : A -> result B) (l : list A) : result (list B) :=
  match l with
  | [] => Ok []
  | a :: l' => b <- f a ;; bs <- mapM f l' ;; Ok (b :: bs)
  end.

(** [lo, lo+1, ..., lo+len-1] *)
Definition Zseq (lo : Z) (len : nat) : list Z :=
  map (fun i => lo + Z.of_nat i) (seq 0 len).

(** The values of a drained slice, without the frame. *)
Definition values {G : Type} (r : result (list Fraction * G))
  : result (list Fraction) :=
  '(vs, _) <- r ;; Ok vs.

(** Decides whether the term at [(d, n)], computed with [gamma_ref], is
    [1 / c] with [c * d! * (n-1)! = (n+d-1)!]. *)
Definition term_is_reciprocal (d n : Z) : bool :=
  match tr_term gamma_ref d n with
  | Ok v =>
      (Qnum v =? 1) &&
      (Zpos (Qden v) * factorial (Z.to_nat d) * factorial (Z.to_nat (n - 1))
       =? factorial (Z.to_nat (n + d - 1)))
  | Raise _ => false
  end.

(** All pairs [d >= 1], [n >= 1] with [n + d <= B]. *)
Definition all_terms_reciprocal (B : nat) : bool :=
  forallb (fun d => forallb (term_is_reciprocal d) (Zseq 1 (B - Z.to_nat d)))
          (Zseq 1 B).

(** ** Generator objects

    Every call of [inv_tr_nums] or [inv_gap_nums] makes a new generator
    object; the driver rebinds [gen] to four of them. Objects live in a heap
    and are named by their position in it. The generator that
    [inv_gap_nums] makes for itself is bound to a local of its frame only,
    and stays inside that frame. *)

Inductive producer : Type := InvTrNums | InvGapNums.

Inductive generator : Type :=
| TrGen (g : tr_frame)
| GapGen (g : gap_frame).

Definition heap : Type := list generator.

(** Calling the generator function [p] with argument [d]. *)
Definition create (p : producer) (d : Z) : generator :=
  match p with
  | InvTrNums => TrGen (inv_tr_nums d)
  | InvGapNums => GapGen (inv_gap_nums d)
  end.

Definition new (o : generator) (h : heap) : nat * heap :=
  (List.length h, h ++ [o]).

Fixpoint store (h : heap) (a : nat) (o : generator) : heap :=
  match h, a with
  | [], _ => []
  | _ :: h', O => o :: h'
  | o' :: h', S a' => o' :: store h' a' o
  end.

Definition next_generator (gamma : Z -> float64) (o : generator)
  : result (Fraction * generator) :=
  match o with
  | TrGen g => '(v, g') <- tr_next gamma g ;; Ok (v, TrGen g')
  | GapGen g => '(v, g') <- gap_next gamma g ;; Ok (v, GapGen g')
  end.

(** [next] on the object at address [a]; [None] when [a] names no
    object. *)
Definition heap_next (gamma : Z -> float64) (h : heap) (a : nat)
  : option (result (Fraction * heap)) :=
  match nth_error h a with
  | None => None
  | Some o => Some ('(v, o') <- next_generator gamma o ;; Ok (v, store h a o'))
  end.

(** [islice] over the object at address [a]. *)
Fixpoint heap_islice (gamma : Z -> float64) (h : heap) (a : nat) (len : nat)
  : option (result (list Fraction * heap)) :=
  match len with
  | O => Some (Ok ([], h))
  | S len' =>
      match heap_next gamma h a with
      | None => None
      | Some (Raise e) => Some (Raise e)
      | Some (Ok (v, h')) =>
          match heap_islice gamma h' a len' with
          | None => None
          | Some r => Some ('(vs, h'') <- r ;; Ok (v :: vs, h''))
          end
      end
  end.

(** The exact simplex-number reciprocals and gaps the driver is after. *)
Definition first10_tr_2 : list Fraction :=
  [1 # 1; 1 # 3; 1 # 6; 1 # 10; 1 # 15; 1 # 21; 1 # 28; 1 # 36; 1 # 45;
   1 # 55]%Q.

Definition first10_tr_3 : list Fraction :=
  [1 # 1; 1 # 4; 1 # 10; 1 # 20; 1 # 35; 1 # 56; 1 # 84; 1 # 120; 1 # 165;
   1 # 220]%Q.

Definition first10_gap_2 : list Fraction :=
  [0 # 1; 1 # 3; 1 # 2; 3 # 5; 2 # 3; 5 # 7; 3 # 4; 7 # 9; 4 # 5; 9 # 11]%Q.

Definition first10_gap_3 : list Fraction :=
  [0 # 1; 1 # 4; 7 # 20; 2 # 5; 3 # 7; 25 # 56; 11 # 24; 7 # 15; 26 # 55;
   21 # 44]%Q.

(** Whether a line of standard output is the separator the driver prints
    between blocks. *)
Definition is_separator (line : string) : bool := String.eqb line "---".

(** The sum of a list of rationals. *)
Definition Qsum (vs : list Q) : Q := fold_right Qplus 0%Q vs.

(** * Properties *)

(** ** The error monad *)

Lemma bind_Ok {A B : Type} (r : result A) (k : A -> result B) (b : B) :
  bind r k = Ok b -> exists a, r = Ok a /\ k a = Ok b.
Proof.
  destruct r as [a|e]; simpl; intros H; [eauto | discriminate].
Qed.

Lemma mapM_ext {A B : Type} (f f' : A -> result B) (l : list A) :
  (forall a, In a l -> f a = f' a) -> mapM f l = mapM f' l.
Proof.
  induction l as [|a l IH]; simpl; intros H; [reflexivity|].
  rewrite (H a) by auto. rewrite IH by auto. reflexivity.
Qed.

Lemma mapM_length {A B : Type} (f : A -> result B) (l : list A) (bs : list B) :
  mapM f l = Ok bs -> List.length bs = List.length l.
Proof.
  revert bs; induction l as [|a l IH]; simpl; intros bs H.
  - inversion H; reflexivity.
  - apply bind_Ok in H as (b & _ & H).
    apply bind_Ok in H as (bs' & Hbs & H).
    inversion H; subst; simpl. f_equal; auto.
Qed.

Lemma Zseq_S (lo : Z) (len : nat) :
  Zseq lo (S len) = lo :: Zseq (lo + 1) len.
Proof.
  unfold Zseq. simpl. rewrite Z.add_0_r. f_equal.
  rewrite <- seq_shift, map_map. apply map_ext.
  intros i. lia.
Qed.

Lemma In_Zseq (lo : Z) (len : nat) (z : Z) :
  In z (Zseq lo len) <-> lo <= z < lo + Z.of_nat len.
Proof.
  unfold Zseq. rewrite in_map_iff. split.
  - intros (i & <- & Hi). apply in_seq in Hi. lia.
  - intros Hz. exists (Z.to_nat (z - lo)). split; [lia|].
    apply in_seq. lia.
Qed.

(** ** The index of [inv_tr_nums] *)

Section GeneratorFacts.

Variable gamma : Z -> float64.

Lemma islice_tr_from (d n0 : Z) (len : nat) :
  islice (tr_next gamma) (TrFrame d n0) len =
  (vs <- mapM (tr_term gamma d) (Zseq n0 len) ;;
   Ok (vs, TrFrame d (n0 + Z.of_nat len))).
Proof.
  revert n0; induction len as [|len IH]; intros n0.
  - simpl. rewrite Z.add_0_r. reflexivity.
  - rewrite Zseq_S. cbn [islice mapM]. unfold tr_next at 1. cbn [tr_d tr_n].
    destruct (tr_term gamma d n0) as [v|e]; [|reflexivity].
    cbn [bind]. rewrite IH.
    destruct (mapM (tr_term gamma d) (Zseq (n0 + 1) len)) as [vs|e];
      [|reflexivity].
    cbn [bind]. do 3 f_equal. lia.
Qed.

Lemma yield_at_islice {G : Type} (next : G -> result (Fraction * G))
      (len : nat) :
  forall (g g' : G) (vs : list Fraction) (i : nat),
    islice next g len = Ok (vs, g') ->
    (i < len)%nat ->
    exists v, nth_error vs i = Some v /\ yield_at next g i = Ok v.
Proof.
  induction len as [|len IH]; intros g g' vs i H Hi; [lia|].
  cbn [islice] in H.
  apply bind_Ok in H as ([v g1] & Hnext & H).
  apply bind_Ok in H as ([vs' g2] & Hrest & H).
  inversion H; subst; clear H.
  destruct i as [|i]; cbn [yield_at]; rewrite Hnext; cbn [bind].
  - exists v; split; reflexivity.
  - destruct (IH g1 g' vs' i Hrest) as (w & Hw & Hy); [lia|].
    exists w; split; assumption.
Qed.

Lemma yield_at_tr_from (d n0 : Z) (i : nat) :
  (forall j, n0 <= j < n0 + Z.of_nat i -> exists v, tr_term gamma d j = Ok v) ->
  yield_at (tr_next gamma) (TrFrame d n0) i = tr_term gamma d (n0 + Z.of_nat i).
Proof.
  revert n0; induction i as [|i IH]; intros n0 Hpre;
    cbn [yield_at]; unfold tr_next at 1; cbn [tr_d tr_n].
  - rewrite Z.add_0_r. destruct (tr_term gamma d n0); reflexivity.
  - destruct (Hpre n0) as (v & Hv); [lia|]. rewrite Hv. cbn [bind].
    rewrite IH.
    + f_equal. lia.
    + intros j Hj. apply Hpre. lia.
Qed.

(** C8: the values of the first [k] resumptions of [inv_tr_nums(d)]
    are the terms computed at [n = 1, 2, ..., k], in that order, each
    index used once; the frame left behind holds the same [d] and
    [n = 1 + k]. An exception at some index ends the run there. *)
Theorem inv_tr_nums_index (d : Z) (k : nat) :
  islice (tr_next gamma) (inv_tr_nums d) k =
  (vs <- mapM (tr_term gamma d) (Zseq 1 k) ;;
   Ok (vs, TrFrame d (1 + Z.of_nat k))).
Proof.
  unfold inv_tr_nums. apply islice_tr_from.
Qed.

(** ** The accumulator of [inv_gap_nums] *)

Lemma islice_gap_from (x : Fraction) (g : tr_frame) (len : nat) :
  islice (gap_next gamma) (GapFrame x g) len =
  ('(vs, g') <- islice (tr_next gamma) g len ;;
   Ok (running_sums x vs, GapFrame (fold_left Fraction_add vs x) g')).
Proof.
  revert x g; induction len as [|len IH]; intros x g; [reflexivity|].
  cbn [islice]. unfold gap_next at 1. cbn [gap_x gap_gen].
  destruct (tr_next gamma g) as [[v g1]|e]; [|reflexivity].
  cbn [bind]. rewrite IH.
  destruct (islice (tr_next gamma) g1 len) as [[vs g2]|e]; reflexivity.
Qed.

Lemma yield_at_gap_from (x : Fraction) (g : tr_frame) (i : nat) :
  yield_at (gap_next gamma) (GapFrame x g) i =
  ('(vs, _) <- islice (tr_next gamma) g (S i) ;;
   Ok (fold_left Fraction_add vs x)).
Proof.
  revert x g; induction i as [|i IH]; intros x g.
  - cbn [yield_at islice]. unfold gap_next. cbn [gap_x gap_gen].
    destruct (tr_next gamma g) as [[v g1]|e]; reflexivity.
  - change (yield_at (gap_next gamma) (GapFrame x g) (S i))
      with ('(v, g') <- gap_next gamma (GapFrame x g) ;;
            yield_at (gap_next gamma) g' i).
    change (islice (tr_next gamma) g (S (S i)))
      with ('(v, g') <- tr_next gamma g ;;
            '(vs, g'') <- islice (tr_next gamma) g' (S i) ;;
            Ok (v :: vs, g'')).
    unfold gap_next at 1. cbn [gap_x gap_gen].
    destruct (tr_next gamma g) as [[v g1]|e]; [|reflexivity].
    cbn [bind]. rewrite IH.
    destruct (islice (tr_next gamma) g1 (S i)) as [[vs g2]|e]; reflexivity.
Qed.

Lemma fold_Fraction_add_sum (vs : list Q) :
  forall x : Q, (fold_left Fraction_add vs x == x + Qsum vs)%Q.
Proof.
  induction vs as [|v vs IH]; intros x; cbn [fold_left Qsum fold_right].
  - ring.
  - rewrite IH. unfold Fraction_add. rewrite Qred_correct.
    fold (Qsum vs). ring.
Qed.

(** C2: the [k]-th value of [inv_gap_nums(d)] (here [k = i + 1]) equals
    [-1] plus the sum of the first [k] values [vs] of [inv_tr_nums(d)]; it
    is the accumulator started at [-1] with those values added to it from
    left to right. If one of those [k] draws raises, the gap generator
    raises the same exception. *)
Theorem inv_gap_nums_running_sum (d : Z) (i : nat) :
  match islice (tr_next gamma) (inv_tr_nums d) (S i) with
  | Ok (vs, _) =>
      exists x : Fraction,
        yield_at (gap_next gamma) (inv_gap_nums d) i = Ok x /\
        (x == -1 + Qsum vs)%Q /\
        x = fold_left Fraction_add vs (Fraction_of_Z (-1)) /\
        List.length vs = S i
  | Raise e => yield_at (gap_next gamma) (inv_gap_nums d) i = Raise e
  end.
Proof.
  unfold inv_gap_nums. rewrite yield_at_gap_from.
  destruct (islice (tr_next gamma) (inv_tr_nums d) (S i)) as [[vs g]|e] eqn:E;
    cbn [bind]; [|reflexivity].
  eexists. split; [reflexivity|]. split; [|split; [reflexivity|]].
  - rewrite fold_Fraction_add_sum. reflexivity.
  - unfold inv_tr_nums in E. rewrite islice_tr_from in E.
    apply bind_Ok in E as (ws & Hws & E). inversion E; subst.
    rewrite (mapM_length _ _ _ Hws). unfold Zseq.
    rewrite length_map, length_seq. reflexivity.
Qed.

End GeneratorFacts.

(** ** From a double to a fraction *)

Lemma strip_twos_value (m : positive) :
  forall (e : Z) (odd : positive) (e' : Z),
    strip_twos m e = (odd, e') ->
    (inject_Z (Zpos m) * Qpower 2 e == inject_Z (Zpos odd) * Qpower 2 e')%Q.
Proof.
  induction m as [m IH|m IH|]; intros e odd e' H; cbn [strip_twos] in H;
    try (inversion H; subst; reflexivity).
  rewrite <- (IH _ _ _ H).
  rewrite Qpower_plus by discriminate.
  change (Zpos m~0) with (2 * Zpos m). rewrite inject_Z_mult.
  change (Qpower 2 1) with (inject_Z 2). ring.
Qed.

Lemma strip_twos_odd (m : positive) :
  forall (e : Z) (odd : positive) (e' : Z),
    strip_twos m e = (odd, e') -> Z.odd (Zpos odd) = true.
Proof.
  induction m as [m IH|m IH|]; intros e odd e' H; cbn [strip_twos] in H;
    try (inversion H; subst; reflexivity).
  eauto.
Qed.

Lemma odd_gcd_pow2 (a : Z) (p : positive) :
  Z.odd a = true -> Z.gcd a (Zpos (2 ^ p)) = 1.
Proof.
  intros Ha. rewrite Pos2Z.inj_pow.
  apply Zdivisibility.Z.coprime_pow_r; [lia|].
  unfold Zdivisibility.Z.coprime.
  assert (Hg : (Z.gcd a 2 | 2)) by apply Z.gcd_divide_r.
  assert (Hga : (Z.gcd a 2 | a)) by apply Z.gcd_divide_l.
  pose proof (Z.gcd_nonneg a 2) as Hnn.
  apply Z.divide_pos_le in Hg; [|lia].
  assert (Hcases : Z.gcd a 2 = 0 \/ Z.gcd a 2 = 1 \/ Z.gcd a 2 = 2) by lia.
  destruct Hcases as [H0|[H1|H2]]; [|exact H1|].
  - apply Z.gcd_eq_0_r in H0. discriminate.
  - rewrite H2 in Hga. destruct Hga as [c Hc].
    rewrite Hc, Z.odd_mul in Ha. rewrite andb_false_r in Ha. discriminate.
Qed.

Lemma signed_odd (s : bool) (odd : positive) :
  Z.odd (Zpos odd) = true ->
  Z.odd (if s then Zneg odd else Zpos odd) = true.
Proof.
  destruct s; [|trivial]. intros H.
  change (Zneg odd) with (- Zpos odd). rewrite Z.odd_opp. exact H.
Qed.

Lemma signed_inject (s : bool) (odd : positive) :
  (inject_Z (if s then Zneg odd else Zpos odd) ==
   (if s then -1 else 1) * inject_Z (Zpos odd))%Q.
Proof.
  destruct s; unfold Qeq; simpl; lia.
Qed.

Lemma Qpower_2_neg (p : positive) : (Qpower 2 (Zneg p) == 1 # (2 ^ p))%Q.
Proof.
  change (Zneg p) with (- Zpos p). rewrite Qpower_opp.
  change 2%Q with (inject_Z 2). rewrite <- Zpower_Qpower by lia.
  change 2 with (Zpos 2). rewrite <- Pos2Z.inj_pow. reflexivity.
Qed.

(** [Fraction(x)] of a finite nonzero double is the double's real value, in
    lowest terms, and is not zero. *)
Lemma Fraction_of_float_finite (s : bool) (m : positive) (e : Z) :
  exists q, Fraction_of_float (S754_finite s m e) = Ok q /\
            (q == float_value s m e)%Q /\ Qred q = q /\ Qnum q <> 0.
Proof.
  unfold Fraction_of_float, as_integer_ratio, float_value.
  destruct (strip_twos m e) as [odd e'] eqn:Hs.
  pose proof (strip_twos_value _ _ _ _ Hs) as Hv.
  pose proof (signed_odd s _ (strip_twos_odd _ _ _ _ Hs)) as Hodd.
  pose proof (signed_inject s odd) as Hsig.
  set (num := if s then Zneg odd else Zpos odd) in *.
  assert (Hval : ((if s then -1 else 1) * inject_Z (Zpos m) * Qpower 2 e ==
                  inject_Z num * Qpower 2 e')%Q).
  { rewrite Hsig, <- Qmult_assoc, Hv. ring. }
  assert (Hnum : num <> 0) by (intros E; rewrite E in Hodd; discriminate).
  destruct e' as [|p|p]; cbn [bind].
  - exists (Qmake (Z.shiftl num 0) 1). rewrite Hval.
    rewrite Z.shiftl_0_r. repeat split.
    + change (Qpower 2 0) with 1%Q. unfold inject_Z. ring.
    + apply Qred_identity. apply Z.gcd_1_r.
    + exact Hnum.
  - exists (Qmake (Z.shiftl num (Zpos p)) 1). rewrite Hval.
    rewrite Z.shiftl_mul_pow2 by lia. repeat split.
    + change (Qmake (num * 2 ^ Zpos p) 1) with (inject_Z (num * 2 ^ Zpos p)).
      rewrite inject_Z_mult, Zpower_Qpower by lia. reflexivity.
    + apply Qred_identity. apply Z.gcd_1_r.
    + cbn [Qnum]. apply Z.neq_mul_0. split; [exact Hnum|]. lia.
  - exists (Qmake num (2 ^ p)). rewrite Hval. repeat split.
    + rewrite Qpower_2_neg. unfold Qeq, Qmult, inject_Z; cbn [Qnum Qden]. lia.
    + apply Qred_identity. cbn [Qnum Qden]. apply odd_gcd_pow2. exact Hodd.
    + exact Hnum.
Qed.

Lemma Fraction_div_one (q : Fraction) :
  Qnum q <> 0 ->
  exists v, Fraction_div (Fraction_of_Z 1) q = Ok v /\
            (v * q == 1)%Q /\ Qred v = v.
Proof.
  intros Hq. unfold Fraction_div.
  destruct (Qnum q =? 0) eqn:E; [apply Z.eqb_eq in E; contradiction|].
  eexists; split; [reflexivity|]. split.
  - rewrite Qred_correct. unfold Fraction_of_Z.
    change (inject_Z 1) with 1%Q. field.
    intros H0. apply Hq. unfold Qeq in H0. simpl in H0. lia.
  - apply Qred_involutive.
Qed.

(** One step: whenever the floating-point ratio [r] is a finite nonzero
    double [(-1)^s * m * 2^e], [Fraction(r)] is that real number exactly,
    as a ratio of integers in lowest terms, and the term [v] is its exact
    reciprocal: [v * r = 1], in lowest terms. A zero, infinite or NaN
    ratio gives no term: the step raises. *)
Lemma tr_term_exact_conversion (gamma : Z -> float64) (d n : Z) :
  match gamma_ratio gamma d n with
  | S754_finite s m e =>
      exists q v,
        Fraction_of_float (gamma_ratio gamma d n) = Ok q /\
        (q == float_value s m e)%Q /\ Qred q = q /\
        tr_term gamma d n = Ok v /\
        (v * float_value s m e == 1)%Q /\ Qred v = v
  | S754_zero _ => tr_term gamma d n = Raise ZeroDivisionError
  | S754_infinity _ => tr_term gamma d n = Raise OverflowError
  | S754_nan => tr_term gamma d n = Raise ValueError
  end.
Proof.
  unfold tr_term.
  destruct (gamma_ratio gamma d n) as [s|s| |s m e]; try reflexivity.
  destruct (Fraction_of_float_finite s m e) as (q & Hq & Hval & Hred & Hnz).
  destruct (Fraction_div_one q Hnz) as (v & Hv & Hinv & Hvred).
  exists q, v. rewrite Hq. cbn [bind].
  repeat split; try assumption.
  rewrite <- Hval. exact Hinv.
Qed.

(** ** Signs *)

Lemma binary_round_aux_sign (sx : bool) (mx ex : Z) (lx : location) :
  has_sign sx (binary_round_aux prec emax sx mx ex lx).
Proof.
  unfold binary_round_aux.
  destruct (shr_fexp prec emax mx ex lx) as [mrs' e'].
  destruct (shr_fexp prec emax _ e' loc_Exact) as [mrs'' e''].
  destruct (shr_m mrs''); [reflexivity| |exact I].
  destruct (e'' <=? emax - prec); reflexivity.
Qed.

Lemma fmul_nonneg (x y : float64) :
  sign_nonneg x -> sign_nonneg y -> sign_nonneg (fmul x y).
Proof.
  unfold sign_nonneg, fmul.
  destruct x as [sx|sx| |sx mx ex], y as [sy|sy| |sy my ey];
    cbn [has_sign SFmul]; intros Hx Hy; try exact I; subst; try reflexivity.
  apply binary_round_aux_sign.
Qed.

Lemma fdiv_nonneg (x y : float64) :
  sign_nonneg x -> sign_nonneg y -> sign_nonneg (fdiv x y).
Proof.
  unfold sign_nonneg, fdiv.
  destruct x as [sx|sx| |sx mx ex], y as [sy|sy| |sy my ey];
    cbn [has_sign SFdiv]; intros Hx Hy; try exact I; subst; try reflexivity.
  destruct (SFdiv_core_binary prec emax (Zpos mx) ex (Zpos my) ey)
    as [[mz ez] lz].
  apply binary_round_aux_sign.
Qed.

Lemma factorial_pos (k : nat) : 0 < factorial k.
Proof.
  induction k as [|k IH]; [reflexivity|].
  cbn [factorial]. apply Z.mul_pos_pos; lia.
Qed.

Lemma float_of_Z_nonneg (z : Z) : 0 < z -> sign_nonneg (float_of_Z z).
Proof.
  destruct z as [|m|m]; try lia. intros _.
  unfold sign_nonneg, float_of_Z, binary_normalize, binary_round.
  destruct (shl_align m 0 _) as [mz ez].
  apply binary_round_aux_sign.
Qed.

Lemma gamma_ref_nonneg (k : Z) : sign_nonneg (gamma_ref k).
Proof.
  unfold gamma_ref. destruct (k <=? 0); [exact I|].
  apply float_of_Z_nonneg, factorial_pos.
Qed.

Lemma float_value_pos (m : positive) (e : Z) : (0 < float_value false m e)%Q.
Proof.
  unfold float_value. apply Qmult_lt_0_compat.
  - rewrite Qmult_1_l. unfold Qlt, inject_Z; simpl. lia.
  - apply Qpower_0_lt. reflexivity.
Qed.

Section Positivity.

Variable gamma : Z -> float64.
Hypothesis gamma_sign : forall k, 1 <= k -> sign_nonneg (gamma k).

Lemma gamma_ratio_nonneg (d n : Z) :
  1 <= d -> 1 <= n -> sign_nonneg (gamma_ratio gamma d n).
Proof.
  intros Hd Hn. unfold gamma_ratio.
  apply fdiv_nonneg; [|apply fmul_nonneg]; apply gamma_sign; lia.
Qed.

Lemma tr_term_pos (d n : Z) (v : Fraction) :
  1 <= d -> 1 <= n -> tr_term gamma d n = Ok v -> (0 < v)%Q.
Proof.
  intros Hd Hn Hv.
  pose proof (gamma_ratio_nonneg d n Hd Hn) as Hs.
  unfold tr_term in Hv.
  destruct (gamma_ratio gamma d n) as [s|s| |s m e]; try discriminate.
  destruct (Fraction_of_float_finite s m e) as (q & Hq & Hval & _ & Hnz).
  destruct (Fraction_div_one q Hnz) as (v' & Hv' & Hinv & _).
  rewrite Hq in Hv. cbn [bind] in Hv. rewrite Hv in Hv'.
  inversion Hv'; subst v'; clear Hv'. rewrite Hval in Hinv.
  unfold sign_nonneg, has_sign in Hs. subst s.
  pose proof (float_value_pos m e) as Hfv.
  destruct (Qlt_le_dec 0 v) as [Hpos|Hle]; [exact Hpos|exfalso].
  assert (H0 : (v * float_value false m e <= 0 * float_value false m e)%Q).
  { apply Qmult_le_compat_r; [exact Hle|]. apply Qlt_le_weak, Hfv. }
  rewrite Hinv, Qmult_0_l in H0. unfold Qle in H0; simpl in H0. lia.
Qed.

Lemma yield_at_tr_value (d : Z) (i : nat) :
  forall (n0 : Z) (v : Fraction),
    yield_at (tr_next gamma) (TrFrame d n0) i = Ok v ->
    tr_term gamma d (n0 + Z.of_nat i) = Ok v.
Proof.
  induction i as [|i IH]; intros n0 v H; cbn [yield_at] in H;
    unfold tr_next at 1 in H; cbn [tr_d tr_n] in H;
    destruct (tr_term gamma d n0) as [v0|e] eqn:E; try discriminate;
    cbn [bind] in H.
  - rewrite Z.add_0_r, E. exact H.
  - apply IH in H. rewrite <- H. f_equal. lia.
Qed.

Lemma yield_at_gap_step (i : nat) :
  forall (x0 : Fraction) (g : tr_frame) (w : Fraction),
    yield_at (gap_next gamma) (GapFrame x0 g) (S i) = Ok w ->
    exists x v,
      yield_at (gap_next gamma) (GapFrame x0 g) i = Ok x /\
      yield_at (tr_next gamma) g (S i) = Ok v /\
      w = Fraction_add x v.
Proof.
  induction i as [|i IH]; intros x0 g w H.
  - cbn [yield_at] in *. unfold gap_next in *. cbn [gap_x gap_gen] in *.
    destruct (tr_next gamma g) as [[v0 g1]|e]; [|discriminate].
    cbn [bind gap_x gap_gen] in *.
    destruct (tr_next gamma g1) as [[v1 g2]|e]; cbn [bind] in *;
      [|discriminate].
    inversion H; subst.
    exists (Fraction_add x0 v0), v1. repeat split.
  - change (yield_at (gap_next gamma) (GapFrame x0 g) (S (S i)))
      with ('(v, g') <- gap_next gamma (GapFrame x0 g) ;;
            yield_at (gap_next gamma) g' (S i)) in H.
    change (yield_at (gap_next gamma) (GapFrame x0 g) (S i))
      with ('(v, g') <- gap_next gamma (GapFrame x0 g) ;;
            yield_at (gap_next gamma) g' i).
    change (yield_at (tr_next gamma) g (S (S i)))
      with ('(v, g') <- tr_next gamma g ;;
            yield_at (tr_next gamma) g' (S i)).
    unfold gap_next at 1 in H. unfold gap_next at 1.
    cbn [gap_x gap_gen] in *.
    destruct (tr_next gamma g) as [[v0 g1]|e]; [|discriminate].
    cbn [bind] in *. apply IH in H. exact H.
Qed.

(** C9: with a gamma that returns no negative value on the positive
    integers, every value that [inv_tr_nums(d)] yields, [d >= 1], is
    strictly positive, and each value of [inv_gap_nums(d)] is strictly
    greater than the one before it. *)
Theorem positive_terms_increasing_gaps (d : Z) :
  1 <= d ->
  (forall (i : nat) (v : Fraction),
      yield_at (tr_next gamma) (inv_tr_nums d) i = Ok v -> (0 < v)%Q) /\
  (forall (i : nat) (x w : Fraction),
      yield_at (gap_next gamma) (inv_gap_nums d) i = Ok x ->
      yield_at (gap_next gamma) (inv_gap_nums d) (S i) = Ok w ->
      (x < w)%Q).
Proof.
  intros Hd.
  assert (Hpos : forall i v,
             yield_at (tr_next gamma) (inv_tr_nums d) i = Ok v -> (0 < v)%Q).
  { intros i v H. apply yield_at_tr_value in H.
    apply (tr_term_pos d (1 + Z.of_nat i)); [lia|lia|exact H]. }
  split; [exact Hpos|].
  intros i x w Hx Hw. unfold inv_gap_nums in *.
  apply yield_at_gap_step in Hw as (x' & v & Hx' & Hv & ->).
  rewrite Hx in Hx'. inversion Hx'; subst x'; clear Hx'.
  apply Hpos in Hv.
  unfold Fraction_add. rewrite Qred_correct.
  rewrite <- (Qplus_0_r x) at 1.
  apply Qplus_lt_r. exact Hv.
Qed.

End Positivity.

Lemma positive_terms_increasing_gaps_witness :
  (forall k, 1 <= k -> sign_nonneg (gamma_ref k)) /\ 1 <= 2 /\
  (0 < 1 # 6)%Q /\ (1 # 3 < 1 # 2)%Q.
Proof.
  pose proof (positive_terms_increasing_gaps
                gamma_ref (fun k _ => gamma_ref_nonneg k) 2 ltac:(lia))
    as [Hpos Hinc].
  split; [intros k _; apply gamma_ref_nonneg|]. split; [lia|]. split.
  - apply (Hpos 2%nat). vm_compute. reflexivity.
  - apply (Hinc 1%nat); vm_compute; reflexivity.
Defined.

(** ** Binomial coefficients and factorials *)

Lemma binom_above (n : nat) : forall k, (n < k)%nat -> binom n k = 0.
Proof.
  induction n as [|n IH]; intros [|k] H; try lia; [reflexivity|].
  cbn [binom]. rewrite !IH by lia. reflexivity.
Qed.

Lemma binom_diag (n : nat) : binom n n = 1.
Proof.
  induction n as [|n IH]; [reflexivity|].
  cbn [binom]. rewrite IH, binom_above by lia. reflexivity.
Qed.

Lemma binom_0_r (n : nat) : binom n 0 = 1.
Proof. destruct n; reflexivity. Qed.

Lemma binom_factorial (m : nat) :
  forall n k, (n + k = m)%nat ->
              binom m k * (factorial k * factorial n) = factorial m.
Proof.
  induction m as [|m IH]; intros n k E.
  - assert (n = 0 /\ k = 0)%nat as [-> ->] by lia. reflexivity.
  - destruct k as [|k].
    + rewrite binom_0_r. replace n with (S m) by lia.
      change (factorial 0) with 1. lia.
    + destruct n as [|n].
      * replace (S k) with (S m) by lia. rewrite binom_diag.
        change (factorial 0) with 1. lia.
      * cbn [binom].
        pose proof (IH (S n) k ltac:(lia)) as H1.
        pose proof (IH n (S k) ltac:(lia)) as H2.
        change (factorial (S m)) with (Z.of_nat (S m) * factorial m).
        change (factorial (S k)) with (Z.of_nat (S k) * factorial k) in *.
        change (factorial (S n)) with (Z.of_nat (S n) * factorial n) in *.
        replace (Z.of_nat (S m)) with (Z.of_nat (S k) + Z.of_nat (S n)) by lia.
        set (a := binom m k) in *. set (b := binom m (S k)) in *.
        set (fk := factorial k) in *. set (fn := factorial n) in *.
        set (sk := Z.of_nat (S k)) in *. set (sn := Z.of_nat (S n)) in *.
        transitivity (sk * (a * (fk * (sn * fn))) + sn * (b * (sk * fk * fn)));
          [ring|].
        rewrite H1, H2. ring.
Qed.

(** ** A gamma that is exact on an initial range *)

Lemma gamma_ref_exact (B : Z) : gamma_exact_upto gamma_ref B.
Proof.
  intros k Hk. unfold gamma_ref.
  destruct (k <=? 0) eqn:E; [apply Z.leb_le in E; lia|reflexivity].
Qed.

Lemma tr_term_ext (gamma gamma' : Z -> float64) (d n : Z) :
  gamma (n + d) = gamma' (n + d) -> gamma n = gamma' n ->
  gamma (d + 1) = gamma' (d + 1) ->
  tr_term gamma d n = tr_term gamma' d n.
Proof.
  intros H1 H2 H3. unfold tr_term, gamma_ratio. rewrite H1, H2, H3. reflexivity.
Qed.

Lemma tr_next_frame (gamma : Z -> float64) (d n : Z) :
  tr_next gamma (TrFrame d n) =
  (v <- tr_term gamma d n ;; Ok (v, TrFrame d (n + 1))).
Proof. reflexivity. Qed.

Lemma yield_at_tr_raise (gamma : Z -> float64) (d : Z) (i : nat) :
  forall (n0 : Z) (err : exn),
    yield_at (tr_next gamma) (TrFrame d n0) i = Raise err ->
    exists j, (j <= i)%nat /\ tr_term gamma d (n0 + Z.of_nat j) = Raise err.
Proof.
  induction i as [|i IH]; intros n0 err H; cbn [yield_at] in H;
    rewrite tr_next_frame in H;
    destruct (tr_term gamma d n0) as [v0|e0] eqn:E; cbn [bind] in H;
    try discriminate.
  - exists 0%nat. split; [lia|]. rewrite Z.add_0_r, E. exact H.
  - apply IH in H as (j & Hj & Ht). exists (S j). split; [lia|].
    rewrite <- Ht. f_equal. lia.
  - exists 0%nat. split; [lia|]. rewrite Z.add_0_r, E. exact H.
Qed.

(** C5: at every draw from [inv_tr_nums(d)], the [(i+1)]-th being the one
    with [n = i + 1]: a value [v] is yielded only when the double
    [r = gamma(n+d) / (gamma(n) * gamma(d+1))] is finite and nonzero, say
    [(-1)^s * m * 2^e]; [Fraction(r)] is then that real number exactly, as
    a ratio [q] of integers in lowest terms, and [v] is the exact reciprocal
    of [q], [v * q = 1], in lowest terms. When the draw raises instead, the
    ratio at that or an earlier index was zero, infinite or NaN, and the
    exception says which. *)
Theorem inv_tr_nums_yields_exact_reciprocal (gamma : Z -> float64)
        (d : Z) (i : nat) :
  match yield_at (tr_next gamma) (inv_tr_nums d) i with
  | Ok v =>
      exists (s : bool) (m : positive) (e : Z) (q : Fraction),
        fdiv (gamma (1 + Z.of_nat i + d))
             (fmul (gamma (1 + Z.of_nat i)) (gamma (d + 1)))
        = S754_finite s m e /\
        Fraction_of_float (S754_finite s m e) = Ok q /\
        (q == float_value s m e)%Q /\ Qred q = q /\
        (v * q == 1)%Q /\ Qred v = v
  | Raise err =>
      exists j : nat,
        (j <= i)%nat /\
        match fdiv (gamma (1 + Z.of_nat j + d))
                   (fmul (gamma (1 + Z.of_nat j)) (gamma (d + 1))) with
        | S754_finite _ _ _ => False
        | S754_zero _ => err = ZeroDivisionError
        | S754_infinity _ => err = OverflowError
        | S754_nan => err = ValueError
        end
  end.
Proof.
  destruct (yield_at (tr_next gamma) (inv_tr_nums d) i) as [v|err] eqn:E;
    unfold inv_tr_nums in E.
  - apply yield_at_tr_value in E.
    pose proof (tr_term_exact_conversion gamma d (1 + Z.of_nat i)) as H.
    unfold gamma_ratio in H.
    destruct (fdiv (gamma (1 + Z.of_nat i + d))
                   (fmul (gamma (1 + Z.of_nat i)) (gamma (d + 1))))
      as [s|s| |s m e]; try (rewrite E in H; discriminate).
    destruct H as (q & v' & Hq & Hval & Hred & Hv' & Hinv & Hvred).
    rewrite E in Hv'. inversion Hv'; subst v'.
    exists s, m, e, q. repeat split; try assumption.
    rewrite Hval. exact Hinv.
  - apply yield_at_tr_raise in E as (j & Hj & Ht).
    exists j. split; [exact Hj|].
    pose proof (tr_term_exact_conversion gamma d (1 + Z.of_nat j)) as H.
    unfold gamma_ratio in H.
    destruct (fdiv (gamma (1 + Z.of_nat j + d))
                   (fmul (gamma (1 + Z.of_nat j)) (gamma (d + 1))))
      as [s|s| |s m e]; try congruence.
    destruct H as (q & v' & _ & _ & _ & Hv' & _). congruence.
Qed.

Section ExactGamma.

Variable gamma : Z -> float64.
Variable B : Z.
Hypothesis gamma_exact : gamma_exact_upto gamma B.

Lemma tr_term_exact (d n : Z) :
  1 <= d -> 1 <= n -> n + d <= B ->
  tr_term gamma d n = tr_term gamma_ref d n.
Proof.
  intros Hd Hn HB.
  apply tr_term_ext;
    rewrite gamma_exact, (gamma_ref_exact B) by lia; reflexivity.
Qed.

Lemma islice_tr_exact (d : Z) (len : nat) :
  1 <= d -> d + Z.of_nat len <= B ->
  islice (tr_next gamma) (inv_tr_nums d) len =
  islice (tr_next gamma_ref) (inv_tr_nums d) len.
Proof.
  intros Hd HB. unfold inv_tr_nums. rewrite !islice_tr_from.
  rewrite (mapM_ext (tr_term gamma d) (tr_term gamma_ref d)); [reflexivity|].
  intros n Hn. apply In_Zseq in Hn. apply tr_term_exact; lia.
Qed.

Lemma islice_gap_exact (d : Z) (len : nat) :
  1 <= d -> d + Z.of_nat len <= B ->
  islice (gap_next gamma) (inv_gap_nums d) len =
  islice (gap_next gamma_ref) (inv_gap_nums d) len.
Proof.
  intros Hd HB. unfold inv_gap_nums.
  rewrite !islice_gap_from, islice_tr_exact by assumption. reflexivity.
Qed.

Lemma yield_at_tr_exact (d : Z) (i : nat) :
  1 <= d -> d + Z.of_nat (S i) <= B ->
  yield_at (tr_next gamma) (inv_tr_nums d) i =
  yield_at (tr_next gamma_ref) (inv_tr_nums d) i.
Proof.
  intros Hd HB. unfold inv_tr_nums.
  assert (Hgen : forall n0, 1 <= n0 -> n0 + Z.of_nat i + d <= B ->
            yield_at (tr_next gamma) (TrFrame d n0) i =
            yield_at (tr_next gamma_ref) (TrFrame d n0) i).
  { clear HB. induction i as [|i IH]; intros n0 H1 H2;
      cbn [yield_at]; rewrite !tr_next_frame;
      rewrite tr_term_exact by lia;
      destruct (tr_term gamma_ref d n0); cbn [bind]; try reflexivity.
    apply IH; lia. }
  apply Hgen; lia.
Qed.

Lemma yield_at_gap_exact (d : Z) (i : nat) :
  1 <= d -> d + Z.of_nat (S i) <= B ->
  yield_at (gap_next gamma) (inv_gap_nums d) i =
  yield_at (gap_next gamma_ref) (inv_gap_nums d) i.
Proof.
  intros Hd HB.
  unfold inv_gap_nums. rewrite !yield_at_gap_from.
  fold (inv_tr_nums d). rewrite islice_tr_exact by assumption.
  reflexivity.
Qed.

End ExactGamma.

(** ** The closed form of the terms *)

Lemma all_terms_reciprocal_23 : all_terms_reciprocal 23 = true.
Proof. vm_compute. reflexivity. Qed.

Lemma term_is_reciprocal_23 (d n : Z) :
  1 <= d -> 1 <= n -> n + d <= 23 -> term_is_reciprocal d n = true.
Proof.
  intros Hd Hn HB.
  pose proof all_terms_reciprocal_23 as H. unfold all_terms_reciprocal in H.
  rewrite forallb_forall in H.
  specialize (H d ltac:(apply In_Zseq; lia)).
  rewrite forallb_forall in H.
  apply H. apply In_Zseq. lia.
Qed.

Lemma tr_term_ref_binom (d n : Z) :
  1 <= d -> 1 <= n -> n + d <= 23 ->
  exists v, tr_term gamma_ref d n = Ok v /\ Qnum v = 1 /\
            Zpos (Qden v) = binom (Z.to_nat (n + d - 1)) (Z.to_nat d).
Proof.
  intros Hd Hn HB.
  pose proof (term_is_reciprocal_23 d n Hd Hn HB) as H.
  unfold term_is_reciprocal in H.
  destruct (tr_term gamma_ref d n) as [v|e]; [|discriminate].
  apply andb_prop in H as [Hnum Hden].
  apply Z.eqb_eq in Hnum, Hden.
  exists v. repeat split; [exact Hnum|].
  pose proof (binom_factorial (Z.to_nat (n + d - 1)) (Z.to_nat (n - 1))
                              (Z.to_nat d) ltac:(lia)) as Hb.
  pose proof (factorial_pos (Z.to_nat d)) as Pd.
  pose proof (factorial_pos (Z.to_nat (n - 1))) as Pn.
  rewrite <- Hden in Hb.
  apply (Z.mul_reg_r _ _ (factorial (Z.to_nat d) * factorial (Z.to_nat (n - 1)))).
  - apply Z.neq_mul_0; lia.
  - rewrite Hb. ring.
Qed.

(** C1, amended: while the three gamma values are exact factorials, which
    a double can hold up to [22!], that is for [n + d <= 23], the [n]-th
    value of [inv_tr_nums(d)] is the fraction with numerator [1] and
    denominator [C(n+d-1, d)]. *)
Theorem inv_tr_nums_closed_form (gamma : Z -> float64) (d n : Z) :
  1 <= d -> 1 <= n -> n + d <= 23 ->
  gamma_exact_upto gamma (n + d) ->
  exists v,
    yield_at (tr_next gamma) (inv_tr_nums d) (Z.to_nat (n - 1)) = Ok v /\
    Qnum v = 1 /\
    Zpos (Qden v) = binom (Z.to_nat (n + d - 1)) (Z.to_nat d).
Proof.
  intros Hd Hn HB Hex.
  rewrite (yield_at_tr_exact gamma (n + d) Hex) by lia.
  unfold inv_tr_nums. rewrite yield_at_tr_from.
  - replace (1 + Z.of_nat (Z.to_nat (n - 1))) with n by lia.
    apply tr_term_ref_binom; assumption.
  - intros j Hj.
    destruct (tr_term_ref_binom d j) as (v & Hv & _); [lia..|].
    exists v. exact Hv.
Qed.

Lemma inv_tr_nums_closed_form_witness :
  gamma_exact_upto gamma_ref (4 + 3) /\
  exists v,
    yield_at (tr_next gamma_ref) (inv_tr_nums 3) (Z.to_nat (4 - 1)) = Ok v /\
    Qnum v = 1 /\
    Zpos (Qden v) = binom (Z.to_nat (4 + 3 - 1)) (Z.to_nat 3).
Proof.
  split; [apply gamma_ref_exact|].
  apply (inv_tr_nums_closed_form gamma_ref 3 4); try lia.
  apply gamma_ref_exact.
Defined.

(** With the correctly rounded gamma, [gamma(172) = 171!] is beyond the
    largest double: the ratio at [d = 1], [n = 171] is infinite and the
    171st resumption raises instead of yielding [1/171]. *)
Lemma inv_tr_nums_overflow :
  yield_at (tr_next gamma_ref) (inv_tr_nums 1) (Z.to_nat (171 - 1))
  = Raise OverflowError /\
  ~ (exists v,
        yield_at (tr_next gamma_ref) (inv_tr_nums 1) (Z.to_nat (171 - 1))
        = Ok v /\
        Qnum v = 1 /\
        Zpos (Qden v) = binom (Z.to_nat (171 + 1 - 1)) (Z.to_nat 1)).
Proof.
  assert (H : yield_at (tr_next gamma_ref) (inv_tr_nums 1) (Z.to_nat (171 - 1))
              = Raise OverflowError) by (vm_compute; reflexivity).
  split; [exact H|].
  intros (v & Hv & _). rewrite H in Hv. discriminate.
Qed.

(** Before that, rounding already shows: [23!] is not a double, and at
    [d = 2], [n = 22] the correctly rounded gamma gives a ratio one unit in
    the last place off [253]. *)
Remark inv_tr_nums_rounding :
  gamma_ratio gamma_ref 2 22 = S754_finite false 8901646138474497 (-45) /\
  float_of_Z 253 = S754_finite false 8901646138474496 (-45).
Proof. vm_compute. split; reflexivity. Qed.

(** Past [n + d = 23] the closed form is lost even with the correctly
    rounded gamma, which is exact wherever a double can be: at [d = 2],
    [n = 22] the 22nd value is [35184372088832/8901646138474497], not
    [1/253]. *)
Lemma inv_tr_nums_not_closed_form_at_24 :
  gamma_exact_upto gamma_ref (22 + 2) /\
  yield_at (tr_next gamma_ref) (inv_tr_nums 2) (Z.to_nat (22 - 1))
  = Ok (35184372088832 # 8901646138474497)%Q /\
  ~ (exists v,
        yield_at (tr_next gamma_ref) (inv_tr_nums 2) (Z.to_nat (22 - 1))
        = Ok v /\
        Qnum v = 1 /\
        Zpos (Qden v) = binom (Z.to_nat (22 + 2 - 1)) (Z.to_nat 2)).
Proof.
  assert (H : yield_at (tr_next gamma_ref) (inv_tr_nums 2) (Z.to_nat (22 - 1))
              = Ok (35184372088832 # 8901646138474497)%Q)
    by (vm_compute; reflexivity).
  split; [apply gamma_ref_exact|]. split; [exact H|].
  intros (v & Hv & Hnum & _). rewrite H in Hv.
  inversion Hv; subst v. discriminate Hnum.
Qed.

(** ** First values *)

(** C6: with [gamma(1) = gamma(2) = 1.0], the first value of
    [inv_tr_nums(1)] is [1] and the first value of [inv_gap_nums(1)]
    is [0]. *)
Theorem first_values_d1 (gamma : Z -> float64) :
  gamma_exact_upto gamma 2 ->
  yield_at (tr_next gamma) (inv_tr_nums 1) 0 = Ok (1 # 1)%Q /\
  yield_at (gap_next gamma) (inv_gap_nums 1) 0 = Ok (0 # 1)%Q.
Proof.
  intros Hex. split.
  - rewrite (yield_at_tr_exact gamma 2 Hex) by lia. reflexivity.
  - rewrite (yield_at_gap_exact gamma 2 Hex) by lia. reflexivity.
Qed.

Lemma first_values_d1_witness :
  gamma_exact_upto gamma_ref 2 /\
  yield_at (tr_next gamma_ref) (inv_tr_nums 1) 0 = Ok (1 # 1)%Q /\
  yield_at (gap_next gamma_ref) (inv_gap_nums 1) 0 = Ok (0 # 1)%Q.
Proof.
  split; [apply gamma_ref_exact|].
  apply (first_values_d1 gamma_ref). apply gamma_ref_exact.
Defined.

(** C3, amended: with gamma exact on [1 .. 5], the first three values of
    [inv_gap_nums(2)] are [0], [1/3], [1/2]. *)
Theorem inv_gap_nums_2_first_three (gamma : Z -> float64) :
  gamma_exact_upto gamma 5 ->
  values (islice (gap_next gamma) (inv_gap_nums 2) 3)
  = Ok [0 # 1; 1 # 3; 1 # 2]%Q.
Proof.
  intros Hex. rewrite (islice_gap_exact gamma 5 Hex) by lia.
  vm_compute. reflexivity.
Qed.

Lemma inv_gap_nums_2_first_three_witness :
  gamma_exact_upto gamma_ref 5 /\
  values (islice (gap_next gamma_ref) (inv_gap_nums 2) 3)
  = Ok [0 # 1; 1 # 3; 1 # 2]%Q.
Proof.
  split; [apply gamma_ref_exact|].
  apply (inv_gap_nums_2_first_three gamma_ref). apply gamma_ref_exact.
Defined.

(** The values [0, -2/3, -1/2] are not what the generator yields. *)
Lemma inv_gap_nums_2_not_negative :
  values (islice (gap_next gamma_ref) (inv_gap_nums 2) 3)
  <> Ok [0 # 1; -2 # 3; -1 # 2]%Q.
Proof. vm_compute. discriminate. Qed.

(** C10: with gamma exact on [1 .. 12], the [k]-th value of
    [inv_gap_nums(2)], [1 <= k <= 10], is [1 - 2/(k+1)], and is below
    [1]. *)
Theorem inv_gap_nums_2_telescopes (gamma : Z -> float64) (k : Z) :
  gamma_exact_upto gamma 12 ->
  1 <= k <= 10 ->
  exists x,
    yield_at (gap_next gamma) (inv_gap_nums 2) (Z.to_nat (k - 1)) = Ok x /\
    (x == 1 - 2 / inject_Z (k + 1))%Q /\ (x < 1)%Q.
Proof.
  intros Hex Hk. rewrite (yield_at_gap_exact gamma 12 Hex) by lia.
  assert (Hcases : k = 1 \/ k = 2 \/ k = 3 \/ k = 4 \/ k = 5 \/
                   k = 6 \/ k = 7 \/ k = 8 \/ k = 9 \/ k = 10) by lia.
  repeat (destruct Hcases as [->|Hcases]); [..|subst k];
    (eexists; split; [vm_compute; reflexivity|split; reflexivity]).
Qed.

Lemma inv_gap_nums_2_telescopes_witness :
  gamma_exact_upto gamma_ref 12 /\ 1 <= 7 <= 10 /\
  exists x,
    yield_at (gap_next gamma_ref) (inv_gap_nums 2) (Z.to_nat (7 - 1)) = Ok x /\
    (x == 1 - 2 / inject_Z (7 + 1))%Q /\ (x < 1)%Q.
Proof.
  split; [apply gamma_ref_exact|]. split; [lia|].
  apply (inv_gap_nums_2_telescopes gamma_ref 7); [apply gamma_ref_exact|lia].
Defined.

(** ** The driver *)

Lemma print_islice_Ok {G : Type} (next : G -> result (Fraction * G))
      (len : nat) :
  forall (g g' : G) (vs : list Fraction) (out : list string),
    islice next g len = Ok (vs, g') ->
    print_islice next g len out = (Ok tt, out ++ map Fraction_str vs).
Proof.
  induction len as [|len IH]; intros g g' vs out H; cbn [islice] in H.
  - inversion H; subst. cbn. rewrite app_nil_r. reflexivity.
  - apply bind_Ok in H as ([v g1] & Hnext & H).
    apply bind_Ok in H as ([vs' g2] & Hrest & H).
    inversion H; subst; clear H.
    cbn [print_islice]. unfold io_bind, io_lift, print. rewrite Hnext.
    rewrite (IH _ _ _ _ Hrest). cbn [map].
    rewrite <- app_assoc. reflexivity.
Qed.

Lemma islice_ref_tr_2 :
  islice (tr_next gamma_ref) (inv_tr_nums 2) 10
  = Ok (first10_tr_2, TrFrame 2 11).
Proof. vm_compute. reflexivity. Qed.

Lemma islice_ref_tr_3 :
  islice (tr_next gamma_ref) (inv_tr_nums 3) 10
  = Ok (first10_tr_3, TrFrame 3 11).
Proof. vm_compute. reflexivity. Qed.

Lemma islice_ref_gap_2 :
  islice (gap_next gamma_ref) (inv_gap_nums 2) 10
  = Ok (first10_gap_2, GapFrame (9 # 11) (TrFrame 2 11)).
Proof. vm_compute. reflexivity. Qed.

Lemma islice_ref_gap_3 :
  islice (gap_next gamma_ref) (inv_gap_nums 3) 10
  = Ok (first10_gap_3, GapFrame (21 # 44) (TrFrame 3 11)).
Proof. vm_compute. reflexivity. Qed.

(** C4: with gamma exact on [1 .. 13] the run ends normally and standard
    output is four blocks of [N = 10] lines, the first ten values of
    [inv_tr_nums(2)], [inv_tr_nums(3)], [inv_gap_nums(2)] and
    [inv_gap_nums(3)] in this order, one value per line, with a line
    ["---"] after the first, second and third block and none after the
    fourth: 43 lines, three of them separators. *)
Theorem main_output (gamma : Z -> float64) :
  gamma_exact_upto gamma 13 ->
  exists b1 b2 b3 b4 : list Fraction,
    values (islice (tr_next gamma) (inv_tr_nums 2) 10) = Ok b1 /\
    values (islice (tr_next gamma) (inv_tr_nums 3) 10) = Ok b2 /\
    values (islice (gap_next gamma) (inv_gap_nums 2) 10) = Ok b3 /\
    values (islice (gap_next gamma) (inv_gap_nums 3) 10) = Ok b4 /\
    main gamma [] =
      (Ok tt,
       map Fraction_str b1 ++ "---"%string ::
       map Fraction_str b2 ++ "---"%string ::
       map Fraction_str b3 ++ "---"%string ::
       map Fraction_str b4) /\
    List.length b1 = 10%nat /\ List.length b2 = 10%nat /\
    List.length b3 = 10%nat /\ List.length b4 = 10%nat /\
    count_occ string_dec (snd (main gamma [])) "---"%string = 3%nat /\
    snd (main gamma []) =
      ["1"; "1/3"; "1/6"; "1/10"; "1/15"; "1/21"; "1/28"; "1/36"; "1/45";
       "1/55"; "---";
       "1"; "1/4"; "1/10"; "1/20"; "1/35"; "1/56"; "1/84"; "1/120"; "1/165";
       "1/220"; "---";
       "0"; "1/3"; "1/2"; "3/5"; "2/3"; "5/7"; "3/4"; "7/9"; "4/5"; "9/11";
       "---";
       "0"; "1/4"; "7/20"; "2/5"; "3/7"; "25/56"; "11/24"; "7/15"; "26/55";
       "21/44"]%string.
Proof.
  intros Hex.
  pose proof (islice_tr_exact gamma 13 Hex 2 10 ltac:(lia) ltac:(lia)) as H1.
  pose proof (islice_tr_exact gamma 13 Hex 3 10 ltac:(lia) ltac:(lia)) as H2.
  pose proof (islice_gap_exact gamma 13 Hex 2 10 ltac:(lia) ltac:(lia)) as H3.
  pose proof (islice_gap_exact gamma 13 Hex 3 10 ltac:(lia) ltac:(lia)) as H4.
  rewrite islice_ref_tr_2 in H1. rewrite islice_ref_tr_3 in H2.
  rewrite islice_ref_gap_2 in H3. rewrite islice_ref_gap_3 in H4.
  assert (Hmain : main gamma [] =
      (Ok tt,
       map Fraction_str first10_tr_2 ++ "---"%string ::
       map Fraction_str first10_tr_3 ++ "---"%string ::
       map Fraction_str first10_gap_2 ++ "---"%string ::
       map Fraction_str first10_gap_3)).
  { unfold main, N, io_bind, print.
    rewrite (print_islice_Ok _ _ _ _ _ _ H1).
    rewrite (print_islice_Ok _ _ _ _ _ _ H2).
    rewrite (print_islice_Ok _ _ _ _ _ _ H3).
    rewrite (print_islice_Ok _ _ _ _ _ _ H4).
    vm_compute. reflexivity. }
  exists first10_tr_2, first10_tr_3, first10_gap_2, first10_gap_3.
  rewrite H1, H2, H3, H4, Hmain. cbn [values bind snd].
  repeat split; vm_compute; reflexivity.
Qed.

Lemma main_output_witness :
  gamma_exact_upto gamma_ref 13 /\
  exists b1 b2 b3 b4 : list Fraction,
    values (islice (tr_next gamma_ref) (inv_tr_nums 2) 10) = Ok b1 /\
    values (islice (tr_next gamma_ref) (inv_tr_nums 3) 10) = Ok b2 /\
    values (islice (gap_next gamma_ref) (inv_gap_nums 2) 10) = Ok b3 /\
    values (islice (gap_next gamma_ref) (inv_gap_nums 3) 10) = Ok b4 /\
    main gamma_ref [] =
      (Ok tt,
       map Fraction_str b1 ++ "---"%string ::
       map Fraction_str b2 ++ "---"%string ::
       map Fraction_str b3 ++ "---"%string ::
       map Fraction_str b4) /\
    List.length b1 = 10%nat /\ List.length b2 = 10%nat /\
    List.length b3 = 10%nat /\ List.length b4 = 10%nat /\
    count_occ string_dec (snd (main gamma_ref [])) "---"%string = 3%nat.
Proof.
  split; [apply gamma_ref_exact|].
  destruct (main_output gamma_ref (gamma_ref_exact 13))
    as (b1 & b2 & b3 & b4 & H1 & H2 & H3 & H4 & Hm & L1 & L2 & L3 & L4 & Hc & _).
  exists b1, b2, b3, b4. repeat split; assumption.
Defined.

(** ** Independent instances *)

Lemma nth_error_store_same (h : heap) :
  forall (a : nat) (o o' : generator),
    nth_error h a = Some o -> nth_error (store h a o') a = Some o'.
Proof.
  induction h as [|x h IH]; intros [|a] o o' H; simpl in *;
    try discriminate; eauto.
Qed.

Lemma nth_error_store_other (h : heap) :
  forall (a b : nat) (o' : generator),
    a <> b -> nth_error (store h a o') b = nth_error h b.
Proof.
  induction h as [|x h IH]; intros [|a] [|b] o' H; simpl; try reflexivity;
    try lia.
  apply IH. lia.
Qed.

Lemma nth_error_new (o : generator) (h : heap) :
  nth_error (snd (new o h)) (fst (new o h)) = Some o.
Proof.
  unfold new; cbn [fst snd].
  rewrite nth_error_app2 by lia. rewrite Nat.sub_diag. reflexivity.
Qed.

Lemma nth_error_new_old (o : generator) (h : heap) (a : nat) (o' : generator) :
  nth_error h a = Some o' ->
  nth_error (snd (new o h)) a = Some o' /\ a <> fst (new o h).
Proof.
  intros H. unfold new; cbn [fst snd].
  assert (a < List.length h)%nat by (apply nth_error_Some; congruence).
  rewrite nth_error_app1 by lia. split; [exact H|lia].
Qed.

(** Draining the object at [a] is draining its frame: the values are
    those of [islice] on the frame, and only position [a] of the heap
    changes. *)
Lemma heap_islice_frame (gamma : Z -> float64) (a : nat) (len : nat) :
  forall (h : heap) (o : generator),
    nth_error h a = Some o ->
    exists r,
      heap_islice gamma h a len = Some r /\
      values r = values (islice (next_generator gamma) o len) /\
      forall vs h', r = Ok (vs, h') ->
                    forall b, b <> a -> nth_error h' b = nth_error h b.
Proof.
  induction len as [|len IH]; intros h o Ho.
  - eexists; split; [reflexivity|]. split; [reflexivity|].
    intros vs h' E b _. inversion E; subst. reflexivity.
  - cbn [heap_islice islice]. unfold heap_next. rewrite Ho.
    destruct (next_generator gamma o) as [[v o1]|e]; cbn [bind].
    + destruct (IH (store h a o1) o1 (nth_error_store_same _ _ _ _ Ho))
        as (r & Hr & Hv & Hf).
      rewrite Hr. eexists; split; [reflexivity|]. split.
      * destruct r as [[vs h2]|e];
          destruct (islice (next_generator gamma) o1 len) as [[vs' o2]|e'];
          cbn in Hv |- *; congruence.
      * intros vs h' E b Hb.
        destruct r as [[vs2 h2]|e]; cbn [bind] in E; [|discriminate].
        inversion E; subst.
        rewrite (Hf _ _ eq_refl b Hb). apply nth_error_store_other. lia.
    + eexists; split; [reflexivity|]. split; [reflexivity|].
      intros vs h' E. discriminate.
Qed.

(** C7: two generator objects made by the same call, [inv_tr_nums(d)] or
    [inv_gap_nums(d)], give the same first [N] values (or end in the same
    exception), (1) whatever the heaps they were made in, in particular the
    heap a prior run has left, and (2) when both are made first and one is
    drained before the other. *)
Theorem instances_agree (gamma : Z -> float64) (p : producer) (d : Z)
        (len : nat) (h h' : heap) :
  (let '(a, h1) := new (create p d) h in
   let '(b, h2) := new (create p d) h' in
   exists r1 r2,
     heap_islice gamma h1 a len = Some r1 /\
     heap_islice gamma h2 b len = Some r2 /\
     values r1 = values r2) /\
  (let '(a, h1) := new (create p d) h in
   let '(b, h2) := new (create p d) h1 in
   exists r1,
     heap_islice gamma h2 a len = Some r1 /\
     match r1 with
     | Ok (vs, h3) => exists r2, heap_islice gamma h3 b len = Some r2 /\
                                 values r2 = Ok vs
     | Raise e => heap_islice gamma h2 b len = Some (Raise e)
     end).
Proof.
  split.
  - pose proof (nth_error_new (create p d) h) as Ha.
    pose proof (nth_error_new (create p d) h') as Hb.
    destruct (new (create p d) h) as [a h1].
    destruct (new (create p d) h') as [b h2]. cbn [fst snd] in *.
    destruct (heap_islice_frame gamma a len h1 _ Ha) as (r1 & H1 & V1 & _).
    destruct (heap_islice_frame gamma b len h2 _ Hb) as (r2 & H2 & V2 & _).
    exists r1, r2. repeat split; congruence.
  - pose proof (nth_error_new (create p d) h) as Ha.
    destruct (new (create p d) h) as [a h1]. cbn [fst snd] in Ha.
    pose proof (nth_error_new (create p d) h1) as Hb.
    pose proof (nth_error_new_old (create p d) h1 a _ Ha) as [Ha' Hab].
    destruct (new (create p d) h1) as [b h2]. cbn [fst snd] in *.
    destruct (heap_islice_frame gamma a len h2 _ Ha') as (r1 & H1 & V1 & F1).
    exists r1. split; [exact H1|].
    destruct r1 as [[vs h3]|e].
    + assert (Hb3 : nth_error h3 b = Some (create p d)).
      { rewrite (F1 _ _ eq_refl b) by lia. exact Hb. }
      destruct (heap_islice_frame gamma b len h3 _ Hb3) as (r2 & H2 & V2 & _).
      exists r2. split; [exact H2|].
      rewrite V2, <- V1. reflexivity.
    + destruct (heap_islice_frame gamma b len h2 _ Hb) as (r2 & H2 & V2 & _).
      rewrite H2. f_equal.
      rewrite <- V1 in V2.
      destruct r2 as [[vs h3]|e2]; cbn in V2; congruence.
Qed.


(** * Further properties of the generators *)

(** ** Exceptions of [inv_gap_nums] *)

Lemma yield_at_of_islice {G : Type} (next : G -> result (Fraction * G))
      (i : nat) :
  forall g : G,
    match islice next g (S i) with
    | Ok (vs, _) => exists v, yield_at next g i = Ok v /\ nth_error vs i = Some v
    | Raise e => yield_at next g i = Raise e
    end.
Proof.
  induction i as [|i IH]; intros g.
  - cbn [islice yield_at].
    destruct (next g) as [[v g1]|e]; cbn [bind]; [|reflexivity].
    exists v; split; reflexivity.
  - change (islice next g (S (S i)))
      with ('(v, g') <- next g ;;
            '(vs, g'') <- islice next g' (S i) ;; Ok (v :: vs, g'')).
    change (yield_at next g (S i))
      with ('(v, g') <- next g ;; yield_at next g' i).
    destruct (next g) as [[v g1]|e]; cbn [bind]; [|reflexivity].
    specialize (IH g1).
    destruct (islice next g1 (S i)) as [[vs g2]|e]; cbn [bind]; [|exact IH].
    destruct IH as (w & Hw & Hn). exists w; split; assumption.
Qed.

(** X3: [inv_gap_nums(d)] fails exactly where [inv_tr_nums(d)] does, with
    the same exception: if the [(i+1)]-th draw from [inv_tr_nums(d)] ends in
    an exception, so does the [(i+1)]-th draw from [inv_gap_nums(d)], and
    if it yields a value, the gap generator yields one too. *)
Theorem inv_gap_nums_raises_with_inv_tr_nums (gamma : Z -> float64)
        (d : Z) (i : nat) :
  match yield_at (tr_next gamma) (inv_tr_nums d) i with
  | Ok _ => exists x, yield_at (gap_next gamma) (inv_gap_nums d) i = Ok x
  | Raise e => yield_at (gap_next gamma) (inv_gap_nums d) i = Raise e
  end.
Proof.
  unfold inv_gap_nums. rewrite yield_at_gap_from.
  pose proof (yield_at_of_islice (tr_next gamma) i (inv_tr_nums d)) as H.
  destruct (islice (tr_next gamma) (inv_tr_nums d) (S i)) as [[vs g]|e];
    cbn [bind].
  - destruct H as (v & -> & _). eexists; reflexivity.
  - rewrite H. reflexivity.
Qed.

(** ** Gaps and terms *)

(** X4: the difference between two consecutive values of
    [inv_gap_nums(d)] is the value [inv_tr_nums(d)] yields at the later
    position: whenever the [(i+2)]-th gap value [w] exists, so do the
    [(i+1)]-th gap value [x] and the [(i+2)]-th term [v], and
    [w - x = v]. *)
Theorem inv_gap_nums_differences (gamma : Z -> float64) (d : Z) (i : nat) :
  match yield_at (gap_next gamma) (inv_gap_nums d) (S i) with
  | Ok w =>
      exists x v,
        yield_at (gap_next gamma) (inv_gap_nums d) i = Ok x /\
        yield_at (tr_next gamma) (inv_tr_nums d) (S i) = Ok v /\
        (w - x == v)%Q
  | Raise _ => True
  end.
Proof.
  destruct (yield_at (gap_next gamma) (inv_gap_nums d) (S i)) as [w|e] eqn:E;
    [|exact I].
  unfold inv_gap_nums in E.
  apply yield_at_gap_step in E as (x & v & Hx & Hv & ->).
  exists x, v. repeat split; try assumption.
  unfold Fraction_add. rewrite Qred_correct. ring.
Qed.

(** ** Exceptions by operand *)

(** X6: which exception a step of [inv_tr_nums] ends in, read off the
    numerator [gamma(n+d)] and the denominator [gamma(n) * gamma(d+1)] of
    the ratio. A NaN on either side, infinity over infinity and zero over
    zero give [ValueError]; an infinite numerator, or a finite one over a
    zero denominator, gives [OverflowError]; a zero numerator, or a finite
    one over an infinite denominator, gives [ZeroDivisionError]. The
    denominator is NaN as soon as [gamma(n)] or [gamma(d+1)] is, or when
    one of them is infinite and the other zero. *)
Theorem tr_term_exception_by_operand (gamma : Z -> float64) (d n : Z) :
  match gamma (n + d), fmul (gamma n) (gamma (d + 1)) with
  | S754_nan, _ | _, S754_nan
  | S754_infinity _, S754_infinity _
  | S754_zero _, S754_zero _ => tr_term gamma d n = Raise ValueError
  | S754_infinity _, (S754_finite _ _ _ | S754_zero _)
  | S754_finite _ _ _, S754_zero _ => tr_term gamma d n = Raise OverflowError
  | S754_zero _, (S754_finite _ _ _ | S754_infinity _)
  | S754_finite _ _ _, S754_infinity _ =>
      tr_term gamma d n = Raise ZeroDivisionError
  | S754_finite _ _ _, S754_finite _ _ _ => True
  end /\
  match gamma n, gamma (d + 1) with
  | S754_nan, _ | _, S754_nan
  | S754_infinity _, S754_zero _
  | S754_zero _, S754_infinity _ => tr_term gamma d n = Raise ValueError
  | _, _ => True
  end.
Proof.
  unfold tr_term, gamma_ratio, fdiv. split.
  - destruct (gamma (n + d)) as [s|s| |s m e];
      destruct (fmul (gamma n) (gamma (d + 1))) as [s'|s'| |s' m' e'];
      try reflexivity; exact I.
  - unfold fmul.
    destruct (gamma n) as [s|s| |s m e];
      destruct (gamma (d + 1)) as [s'|s'| |s' m' e'];
      try exact I; cbn [SFmul];
      destruct (gamma (n + d)) as [s''|s''| |s'' m'' e'']; reflexivity.
Qed.

(** ** What [print] writes *)

Lemma string_of_uint_head (u : Decimal.uint) :
  exists c s, DecimalString.NilZero.string_of_uint u = String c s /\
              c <> "-"%char.
Proof.
  destruct u; cbn; eexists; eexists; (split; [reflexivity|discriminate]).
Qed.

Lemma str_Z_head (z : Z) :
  (exists c s, str_Z z = String c s /\ c <> "-"%char) \/
  (exists c s, str_Z z = String "-" (String c s) /\ c <> "-"%char).
Proof.
  unfold str_Z. destruct z as [|p|p]; cbn [Z.to_int].
  - left. eexists; eexists; split; [reflexivity|discriminate].
  - left. apply string_of_uint_head.
  - right. unfold Pos.to_int, DecimalString.NilZero.string_of_int.
    destruct (string_of_uint_head (Pos.to_uint p)) as (c & s & -> & Hc).
    exists c, s. split; [reflexivity|exact Hc].
Qed.

Lemma Fraction_str_neq_separator (a : Fraction) :
  Fraction_str a <> "---"%string.
Proof.
  assert (H : forall t, (str_Z (Qnum a) ++ t)%string <> "---"%string).
  { intros t.
    destruct (str_Z_head (Qnum a)) as [(c & s & -> & Hc)|(c & s & -> & Hc)];
      cbn [String.append]; intros E; inversion E; subst; contradiction. }
  unfold Fraction_str. destruct (Qden a); try apply H.
  specialize (H ""%string). intros E. apply H.
  rewrite <- E. clear. induction (str_Z (Qnum a)) as [|c s IH]; cbn;
    [reflexivity|f_equal; exact IH].
Qed.

(** X7: the text [print] writes for a fraction is never the separator
    line ["---"], so a separator in the output is always one the driver
    printed between blocks. *)
Theorem Fraction_str_not_separator (a : Fraction) :
  is_separator (Fraction_str a) = false.
Proof.
  unfold is_separator. apply String.eqb_neq.
  apply Fraction_str_neq_separator.
Qed.

(** ** The printing loop *)

Lemma yield_at_S {G : Type} (next : G -> result (Fraction * G))
      (g g1 : G) (v : Fraction) (i : nat) :
  next g = Ok (v, g1) -> yield_at next g (S i) = yield_at next g1 i.
Proof.
  intros H.
  change (yield_at next g (S i))
    with ('(v, g') <- next g ;; yield_at next g' i).
  rewrite H. reflexivity.
Qed.

Lemma mapM_map {A B C : Type} (f : B -> result C) (h : A -> B) (l : list A) :
  mapM f (map h l) = mapM (fun a => f (h a)) l.
Proof.
  induction l as [|a l IH]; [reflexivity|].
  cbn [map mapM]. rewrite IH. reflexivity.
Qed.

Lemma print_islice_S_Ok {G : Type} (next : G -> result (Fraction * G))
      (len : nat) (g g1 : G) (v : Fraction) (out : list string) :
  next g = Ok (v, g1) ->
  print_islice next g (S len) out =
  print_islice next g1 len (out ++ [Fraction_str v]).
Proof.
  intros H. cbn [print_islice]. unfold io_bind, io_lift, print.
  rewrite H. reflexivity.
Qed.

Lemma print_islice_S_Raise {G : Type} (next : G -> result (Fraction * G))
      (len : nat) (g : G) (e : exn) (out : list string) :
  next g = Raise e -> print_islice next g (S len) out = (Raise e, out).
Proof.
  intros H. cbn [print_islice]. unfold io_bind, io_lift.
  rewrite H. reflexivity.
Qed.

(** X8: the loop [for num in islice(gen, N): print(num)] appends to
    standard output, in order, the text of exactly the values the generator
    yields before its first exception, at most [N] of them. It ends normally
    after [N] lines; otherwise it ends in the exception of the first draw
    that failed and has printed the values before it. *)
Theorem print_islice_outcome {G : Type} (next : G -> result (Fraction * G))
        (len : nat) (g : G) (out : list string) :
  exists vs : list Fraction,
    snd (print_islice next g len out) = out ++ map Fraction_str vs /\
    mapM (yield_at next g) (seq 0 (List.length vs)) = Ok vs /\
    match fst (print_islice next g len out) with
    | Ok _ => List.length vs = len
    | Raise e =>
        (List.length vs < len)%nat /\
        yield_at next g (List.length vs) = Raise e
    end.
Proof.
  revert g out; induction len as [|len IH]; intros g out.
  - exists []. cbn. rewrite app_nil_r. repeat split.
  - destruct (next g) as [[v g1]|e] eqn:Hnext.
    + rewrite (print_islice_S_Ok next len g g1 v out Hnext).
      destruct (IH g1 (out ++ [Fraction_str v])) as (vs & Hout & Hvs & Hres).
      exists (v :: vs). split; [|split].
      * rewrite Hout, <- app_assoc. reflexivity.
      * cbn [List.length seq mapM yield_at]. rewrite Hnext. cbn [bind].
        rewrite <- seq_shift, mapM_map.
        rewrite (mapM_ext _ (yield_at next g1)).
        -- rewrite Hvs. reflexivity.
        -- intros i _. apply yield_at_S with (v := v). exact Hnext.
      * destruct (fst (print_islice next g1 len (out ++ [Fraction_str v])))
          as [u|e].
        -- cbn [List.length]. f_equal. exact Hres.
        -- destruct Hres as [Hlt Hy]. split.
           ++ cbn [List.length]. lia.
           ++ cbn [List.length]. rewrite (yield_at_S next g g1 v _ Hnext).
              exact Hy.
    + rewrite (print_islice_S_Raise next len g e out Hnext).
      exists []. cbn [fst snd map List.length seq mapM]. rewrite app_nil_r.
      repeat split; [lia|].
      cbn [yield_at]. rewrite Hnext. reflexivity.
Qed.

(** ** The driver, whatever gamma returns *)

Lemma print_islice_lines {G : Type} (next : G -> result (Fraction * G))
      (len : nat) :
  forall (g : G) (out : list string),
  exists k : nat,
    map is_separator (snd (print_islice next g len out))
    = map is_separator out ++ repeat false k /\
    List.length (snd (print_islice next g len out)) = (List.length out + k)%nat /\
    match fst (print_islice next g len out) with
    | Ok _ => k = len
    | Raise _ => (k < len)%nat
    end.
Proof.
  induction len as [|len IH]; intros g out.
  - exists 0%nat. cbn. rewrite !app_nil_r. repeat split. lia.
  - destruct (next g) as [[v g1]|e] eqn:Hnext.
    + rewrite (print_islice_S_Ok next len g g1 v out Hnext).
      destruct (IH g1 (out ++ [Fraction_str v])) as (k & Hsep & Hlen & Hres).
      exists (S k). split; [|split].
      * rewrite Hsep, map_app, <- app_assoc. f_equal. cbn [map app repeat].
        f_equal. apply String.eqb_neq, Fraction_str_neq_separator.
      * rewrite Hlen, length_app. cbn [List.length]. lia.
      * destruct (fst (print_islice next g1 len (out ++ [Fraction_str v])));
          lia.
    + rewrite (print_islice_S_Raise next len g e out Hnext).
      exists 0%nat. cbn [fst snd repeat]. rewrite app_nil_r.
      repeat split; lia.
Qed.

Ltac block_cases S L k :=
  eexists; eexists; split; [reflexivity|];
  rewrite S, L;
  repeat (destruct k as [|k];
          [cbn; split; [reflexivity|lia] | ]);
  exfalso; lia.

Lemma main_lines (gamma : Z -> float64) :
  exists (r : result unit) (out : list string),
    main gamma [] = (r, out) /\
    map is_separator out
    = map (fun i => (i mod 11 =? 10)%nat) (seq 0 (List.length out)) /\
    match r with
    | Ok _ => List.length out = 43%nat
    | Raise _ => (List.length out < 43)%nat
    end.
Proof.
  unfold main, N.
  (* block 1 *)
  destruct (print_islice_lines (tr_next gamma) 10 (inv_tr_nums 2) [])
    as (k1 & S1 & L1 & R1).
  unfold io_bind at 1.
  destruct (print_islice (tr_next gamma) (inv_tr_nums 2) 10 []) as [r1 o1].
  cbn [fst snd map List.length app Nat.add] in S1, L1, R1.
  destruct r1 as [u1|e1]; cbv beta iota;
    [rewrite R1 in S1, L1 | block_cases S1 L1 k1].
  unfold io_bind at 1, print at 1.
  (* block 2 *)
  destruct (print_islice_lines (tr_next gamma) 10 (inv_tr_nums 3)
                               (o1 ++ ["---"%string]))
    as (k2 & S2 & L2 & R2).
  unfold io_bind at 1.
  destruct (print_islice (tr_next gamma) (inv_tr_nums 3) 10
                         (o1 ++ ["---"%string])) as [r2 o2].
  rewrite map_app, S1 in S2. rewrite length_app, L1 in L2.
  cbn [fst snd map List.length app Nat.add repeat] in S2, L2, R2.
  destruct r2 as [u2|e2]; cbv beta iota;
    [rewrite R2 in S2, L2 | block_cases S2 L2 k2].
  unfold io_bind at 1, print at 1.
  (* block 3 *)
  destruct (print_islice_lines (gap_next gamma) 10 (inv_gap_nums 2)
                               (o2 ++ ["---"%string]))
    as (k3 & S3 & L3 & R3).
  unfold io_bind at 1.
  destruct (print_islice (gap_next gamma) (inv_gap_nums 2) 10
                         (o2 ++ ["---"%string])) as [r3 o3].
  rewrite map_app, S2 in S3. rewrite length_app, L2 in L3.
  cbn [fst snd map List.length app Nat.add repeat] in S3, L3, R3.
  destruct r3 as [u3|e3]; cbv beta iota;
    [rewrite R3 in S3, L3 | block_cases S3 L3 k3].
  unfold io_bind at 1, print at 1.
  (* block 4 *)
  destruct (print_islice_lines (gap_next gamma) 10 (inv_gap_nums 3)
                               (o3 ++ ["---"%string]))
    as (k4 & S4 & L4 & R4).
  destruct (print_islice (gap_next gamma) (inv_gap_nums 3) 10
                         (o3 ++ ["---"%string])) as [r4 o4].
  rewrite map_app, S3 in S4. rewrite length_app, L3 in L4.
  cbn [fst snd map List.length app Nat.add repeat] in S4, L4, R4.
  destruct r4 as [u4|e4];
    [rewrite R4 in S4, L4 | block_cases S4 L4 k4].
  eexists; eexists; split; [reflexivity|].
  rewrite S4, L4. cbn. split; reflexivity.
Qed.

(** X9: for any gamma, the lines of standard output that are separators
    are exactly those at positions [10], [21], [32], ... (position
    [i] with [i mod 11 = 10], counted from [0]): a separator follows every
    completed block of ten values and nothing else is one. A run that ends
    normally has printed [43] lines; a run that an exception ends has
    printed fewer. *)
Theorem main_outcome (gamma : Z -> float64) :
  map is_separator (snd (main gamma []))
  = map (fun i => (i mod 11 =? 10)%nat)
        (seq 0 (List.length (snd (main gamma [])))) /\
  match fst (main gamma []) with
  | Ok _ => List.length (snd (main gamma [])) = 43%nat
  | Raise _ => (List.length (snd (main gamma [])) < 43)%nat
  end.
Proof.
  destruct (main_lines gamma) as (r & out & -> & Hsep & Hres).
  cbn [fst snd]. split; assumption.
Qed.
